(** * Flappy Bird 3D: the simulation core of [FlappyBird3D]

    A shallow embedding of the game logic of the React component
    [FlappyBird3D]: the collision test [checkCollision], the per-frame
    callback [gameLoop] and the input handler [handleJump].

    Number model.  JavaScript numbers are modelled as exact rationals [Q];
    the score, the high score and the millisecond clock are integers [Z].
    Every constant of the program is a dyadic rational or an integer, so the
    positions and velocities the program computes are exact in this model;
    [Math.min] and [Math.max] are [Qmin] and [Qmax].

    State model.  The React state cells ([bird], [gameState], [score],
    [highScore]) and the refs that carry simulation data ([pipesRef],
    [lastPipeTime]) are the fields of one record [Game].  A callback reads
    the values of [gameState] and [score] that its closure captured at the
    last render, that is the field values of the [Game] it is applied to;
    state setters called during the callback take effect in the [Game] it
    returns.  Meshes, the scene, the camera and the wing animation do not
    feed back into the simulation and are left out. *)

From Stdlib Require Import ZArith QArith Qminmax Lqa Lia List Bool.
Import ListNotations.
Open Scope Q_scope.

(** ** Constants (lines 17-25) *)

Definition GAME_HEIGHT : Q := 600.
Definition GAME_WIDTH : Q := 400.
Definition BIRD_SIZE : Q := 20.
Definition PIPE_WIDTH : Q := 50.
Definition PIPE_GAP : Q := 140.
Definition GRAVITY : Q := 0.25.
Definition JUMP_FORCE : Q := -6.
Definition PIPE_SPEED : Q := 1.5.
Definition MAX_VELOCITY : Q := 6.

(** ** Data (lines 4-15, 36-43) *)

(** [interface Pipe]; the optional [mesh] is a rendering handle. *)
Record Pipe : Type := mkPipe {
  pipe_x : Q;
  pipe_gapY : Q;
  pipe_passed : bool
}.

(** [interface Bird]. *)
Record Bird : Type := mkBird {
  bird_y : Q;
  bird_velocity : Q;
  bird_rotation : Q
}.

(** The string union ['waiting' | 'playing' | 'gameOver']. *)
Inductive GameState : Type := waiting | playing | gameOver.

Definition GameState_eqb (a b : GameState) : bool :=
  match a, b with
  | waiting, waiting | playing, playing | gameOver, gameOver => true
  | _, _ => false
  end.

Record Game : Type := mkGame {
  bird : Bird;
  gameState : GameState;
  score : Z;
  highScore : Z;
  pipesRef : list Pipe;
  lastPipeTime : Z
}.

(** The state after mounting (the [useState] and [useRef] initial values). *)
Definition initialBird : Bird := mkBird 0 0 0.

Definition initialGame : Game :=
  mkGame initialBird waiting 0%Z 0%Z [] 0%Z.

(** ** Comparison of numbers *)

(** The JavaScript test [a < b] on numbers. *)
Definition Qltb (a b : Q) : bool :=
  match a ?= b with
  | Lt => true
  | _ => false
  end.

(** ** [checkCollision] (lines 220-240) *)

Definition birdX : Q := - GAME_WIDTH / 4.
Definition birdRadius : Q := BIRD_SIZE / 2.

(** The condition of the outer [if] of the loop body: the pipe's horizontal
    span and the bird's horizontal span share more than an end point. *)
Definition spansOverlap (pipe : Pipe) : bool :=
  Qltb (pipe_x pipe - PIPE_WIDTH / 2) (birdX + birdRadius) &&
  Qltb (birdX - birdRadius) (pipe_x pipe + PIPE_WIDTH / 2).

(** The condition of the inner [if]: the bird's circle lies wholly on one
    side of the gap. *)
Definition outsideGap (birdY : Q) (pipe : Pipe) : bool :=
  let gapTop := pipe_gapY pipe - PIPE_GAP / 2 in
  let gapBottom := pipe_gapY pipe + PIPE_GAP / 2 in
  Qltb (birdY + birdRadius) gapTop || Qltb gapBottom (birdY - birdRadius).

(** The [for (const pipe of pipesRef.current)] loop with its early
    [return true]; falling out of the loop is the final [return false]. *)
Fixpoint pipeLoop (birdY : Q) (pipes : list Pipe) : bool :=
  match pipes with
  | [] => false
  | pipe :: rest =>
      if spansOverlap pipe
      then if outsideGap birdY pipe then true else pipeLoop birdY rest
      else pipeLoop birdY rest
  end.

Definition checkCollision (pipes : list Pipe) (birdY : Q) : bool :=
  if Qltb 230 birdY || Qltb birdY (-230) then true
  else pipeLoop birdY pipes.

(** ** [gameLoop] (lines 242-322) *)

(** The new bird computed at the head of the [setBird] updater
    (lines 248-256). *)
Definition newBird (prevBird : Bird) : Bird :=
  let newVelocity := Qmin (bird_velocity prevBird + GRAVITY) MAX_VELOCITY in
  let newY := bird_y prevBird + newVelocity in
  let newRotation := Qmax (-0.5) (Qmin 0.5 (newVelocity * 0.05)) in
  mkBird newY newVelocity newRotation.

(** What one call of the [filter] callback (lines 273-293) does to a pipe:
    the pipe as mutated, the boolean the callback returns, and the number of
    [setScore(prev => prev + 1)] updates it queues. *)
Record Filtered : Type := mkFiltered {
  f_pipe : Pipe;
  f_keep : bool;
  f_scored : Z
}.

Definition filterCallback (pipe : Pipe) : Filtered :=
  let x := pipe_x pipe - PIPE_SPEED in
  let moved := mkPipe x (pipe_gapY pipe) (pipe_passed pipe) in
  if Qltb x (- GAME_WIDTH / 2 - PIPE_WIDTH) then mkFiltered moved false 0
  else if negb (pipe_passed pipe) && Qltb (x + PIPE_WIDTH / 2) (- GAME_WIDTH / 4)
  then mkFiltered (mkPipe x (pipe_gapY pipe) true) true 1
  else mkFiltered moved true 0.

(** [pipesRef.current.filter(...)]: the callback runs on every pipe in
    order; the result is the list of kept pipes together with the number of
    queued score updates. *)
Fixpoint filterPipes (pipes : list Pipe) : list Pipe * Z :=
  match pipes with
  | [] => ([], 0%Z)
  | pipe :: rest =>
      let r := filterCallback pipe in
      let rs := filterPipes rest in
      (if f_keep r then f_pipe r :: fst rs else fst rs,
       (f_scored r + snd rs)%Z)
  end.

(** The pipe built at lines 296-309 from one draw [random] of
    [Math.random()]. *)
Definition newPipe (random : Q) : Pipe :=
  let gapY := random * 200 - 100 in
  let pipeX := GAME_WIDTH / 2 + PIPE_WIDTH in
  mkPipe pipeX gapY false.

(** The spawn test of line 295 and the pipe it creates; the caller pushes
    the pipe and stores [currentTime] in [lastPipeTime] (lines 311-312). *)
Definition trySpawn (currentTime : Z) (random : Q) (last : Z) : option Pipe :=
  if (3000 <? currentTime - last)%Z then Some (newPipe random) else None.

(** One call of [gameLoop].  [clockReady] says whether [clockRef.current]
    is set, [currentTime] is the value of [Date.now()] at line 272 and
    [random] the value [Math.random()] yields if it is called.  The [score]
    read at line 317 is the one captured by the closure, [score g]; the
    updates queued by the filter callback reach the score the call leaves
    behind, not that captured value. *)
Definition gameLoop (clockReady : bool) (currentTime : Z) (random : Q)
    (g : Game) : Game :=
  if negb (GameState_eqb (gameState g) playing) || negb clockReady then g
  else
    let nb := newBird (bird g) in
    let newY := bird_y nb in
    let filtered := filterPipes (pipesRef g) in
    let spawned := trySpawn currentTime random (lastPipeTime g) in
    let pipes :=
      match spawned with
      | Some pipe => fst filtered ++ [pipe]
      | None => fst filtered
      end in
    let last :=
      match spawned with
      | Some _ => currentTime
      | None => lastPipeTime g
      end in
    let hit := checkCollision pipes newY in
    mkGame nb
           (if hit then gameOver else gameState g)
           (score g + snd filtered)%Z
           (if hit then Z.max (highScore g) (score g) else highScore g)
           pipes
           last.

(** ** [handleJump] (lines 344-373) *)

Definition setGameState (v : GameState) (g : Game) : Game :=
  mkGame (bird g) v (score g) (highScore g) (pipesRef g) (lastPipeTime g).

Definition setBird (f : Bird -> Bird) (g : Game) : Game :=
  mkGame (f (bird g)) (gameState g) (score g) (highScore g) (pipesRef g)
         (lastPipeTime g).

Definition setScore (v : Z) (g : Game) : Game :=
  mkGame (bird g) (gameState g) v (highScore g) (pipesRef g) (lastPipeTime g).

Definition setPipes (v : list Pipe) (g : Game) : Game :=
  mkGame (bird g) (gameState g) (score g) (highScore g) v (lastPipeTime g).

Definition setLastPipeTime (v : Z) (g : Game) : Game :=
  mkGame (bird g) (gameState g) (score g) (highScore g) (pipesRef g) v.

(** Both [if] statements test the [gameState] captured by the closure, so
    the second one still sees ['waiting'] after the first has requested
    ['playing']. *)
Definition handleJump (g : Game) : Game :=
  let captured := gameState g in
  let g1 :=
    if GameState_eqb captured waiting then setGameState playing g else g in
  if GameState_eqb captured playing then
    setBird (fun prev => mkBird (bird_y prev) JUMP_FORCE (bird_rotation prev)) g1
  else if GameState_eqb captured gameOver then
    setGameState waiting
      (setLastPipeTime 0%Z
         (setPipes []
            (setScore 0%Z
               (setBird (fun _ => mkBird 0 0 0) g1))))
  else g1.

(** ** Runs of the component *)

(** What can happen to the mounted component: an input event reaches
    [handleJump], or an animation frame calls [gameLoop]. *)
Inductive Event : Type :=
| Action
| Frame (clockReady : bool) (currentTime : Z) (random : Q).

(** [Math.random()] yields a number in the half-open interval from 0 to 1. *)
Definition validEvent (e : Event) : Prop :=
  match e with
  | Action => True
  | Frame _ _ random => 0 <= random /\ random < 1
  end.

Definition step (e : Event) (g : Game) : Game :=
  match e with
  | Action => handleJump g
  | Frame clockReady currentTime random =>
      gameLoop clockReady currentTime random g
  end.

Inductive reachable : Game -> Prop :=
| reachable_init : reachable initialGame
| reachable_step (e : Event) (g : Game) :
    reachable g -> validEvent e -> reachable (step e g).

(** The score updates a pipe queues over [n] consecutive frames, the pipe
    leaving the list when the callback returns [false]. *)
Fixpoint lifetimeScored (n : nat) (pipe : Pipe) : Z :=
  match n with
  | O => 0%Z
  | S m =>
      let r := filterCallback pipe in
      (f_scored r + (if f_keep r then lifetimeScored m (f_pipe r) else 0))%Z
  end.

(** The pipe after [n] frames, or [None] once it has been removed. *)
Fixpoint pipeAfter (n : nat) (pipe : Pipe) : option Pipe :=
  match n with
  | O => Some pipe
  | S m =>
      let r := filterCallback pipe in
      if f_keep r then pipeAfter m (f_pipe r) else None
  end.

(** ** The vocabulary of the specification *)

(** [clamp v lo hi], as the specification writes the tilt of the bird. *)
Definition clamp (v lo hi : Q) : Q :=
  if Qltb v lo then lo else if Qltb hi v then hi else v.

(** The right edge of the visible world: the right plane of the camera
    (line 93) at full width.  The removal test of line 280 measures from
    the mirror image [- GAME_WIDTH / 2]. *)
Definition rightWorldEdge : Q := GAME_WIDTH / 2.

(** The obstacle operations of one frame, each taken over the whole list as
    the specification names them, with the tests of the code. *)
Definition advance (pipes : list Pipe) : list Pipe :=
  map (fun pipe =>
         mkPipe (pipe_x pipe - PIPE_SPEED) (pipe_gapY pipe) (pipe_passed pipe))
      pipes.

Definition offscreen (pipe : Pipe) : bool :=
  Qltb (pipe_x pipe) (- GAME_WIDTH / 2 - PIPE_WIDTH).

Definition retireOffscreen (pipes : list Pipe) : list Pipe :=
  filter (fun pipe => negb (offscreen pipe)) pipes.

Definition behindBird (pipe : Pipe) : bool :=
  Qltb (pipe_x pipe + PIPE_WIDTH / 2) (- GAME_WIDTH / 4).

Fixpoint markPassed (pipes : list Pipe) : list Pipe * Z :=
  match pipes with
  | [] => ([], 0%Z)
  | pipe :: rest =>
      let rs := markPassed rest in
      if negb (pipe_passed pipe) && behindBird pipe
      then (mkPipe (pipe_x pipe) (pipe_gapY pipe) true :: fst rs,
            (1 + snd rs)%Z)
      else (pipe :: fst rs, snd rs)
  end.

(** The game after a sequence of events, oldest first. *)
Fixpoint run (events : list Event) (g : Game) : Game :=
  match events with
  | [] => g
  | e :: rest => run rest (step e g)
  end.

(** A decidable form of [validEvent]. *)
Definition validEventb (e : Event) : bool :=
  match e with
  | Action => true
  | Frame _ _ random => Qle_bool 0 random && Qltb random 1
  end.

(** A bird left to fall from the start: one action, then frames without
    input. *)
Definition fallingRun (frames : nat) : list Event :=
  Action :: repeat (Frame true 0%Z 0) frames.

(** The callback turns the flag of this pipe from [false] to [true]. *)
Definition flips (pipe : Pipe) : bool :=
  negb (pipe_passed pipe) &&
  f_keep (filterCallback pipe) &&
  pipe_passed (f_pipe (filterCallback pipe)).

(** A run that keeps the bird inside the gap of the first pipe until the
    pipe is about to be flagged: the action that starts play, a fall, a
    climb with a jump before every frame, a second fall and a second climb. *)
Definition frames (n : nat) : list Event :=
  repeat (Frame true 5000%Z 0.99) n.

Definition climb (n : nat) : list Event :=
  concat (repeat [Action; Frame true 5000%Z 0.99] n).

Definition glidingRun : list Event :=
  Action :: frames 49 ++ climb 68 ++ frames 102 ++ climb 18 ++ frames 14.

(** ** Invariants of runs *)

(** A pipe carries the flag [passed] exactly when its right edge is
    strictly to the left of the bird's centre; it lies between the removal
    line and the spawn position and its gap centre is a spawned one. *)
Definition pipeInv (pipe : Pipe) : Prop :=
  (pipe_passed pipe = true <-> pipe_x pipe + PIPE_WIDTH / 2 < birdX) /\
  - GAME_WIDTH / 2 - PIPE_WIDTH <= pipe_x pipe /\
  pipe_x pipe <= GAME_WIDTH / 2 + PIPE_WIDTH /\
  -100 <= pipe_gapY pipe /\ pipe_gapY pipe < 100.

(** While the game waits nothing of a previous run is left. *)
Definition gameInv (g : Game) : Prop :=
  Forall pipeInv (pipesRef g) /\
  bird_velocity (bird g) <= MAX_VELOCITY /\
  (gameState g = waiting ->
   score g = 0%Z /\ pipesRef g = [] /\ lastPipeTime g = 0%Z /\
   bird g = mkBird 0 0 0).

(** ** Order of the pipes and bounds on the scores *)

(** [leftOf p q]: [p] is at least one frame of travel to the left of [q]. *)
Definition leftOf (p q : Pipe) : Prop :=
  pipe_x p + PIPE_SPEED <= pipe_x q.

(** The pipes are listed oldest first, each to the left of all later ones. *)
Definition spaced (pipes : list Pipe) : Prop :=
  ForallOrdPairs leftOf pipes.

Definition scoreInv (g : Game) : Prop :=
  spaced (pipesRef g) /\
  JUMP_FORCE <= bird_velocity (bird g) /\
  (0 <= score g)%Z /\
  (0 <= highScore g)%Z /\
  (gameState g = gameOver -> (score g <= highScore g + 1)%Z).

(** ** [createPipe] (lines 175-218) *)





(** * Properties *)

(** ** Comparison *)

Lemma Qltb_lt (a b : Q) : Qltb a b = true <-> a < b.
Proof.
  unfold Qltb. rewrite Qlt_alt. destruct (a ?= b); split; congruence.
Qed.

Lemma Qltb_ge (a b : Q) : Qltb a b = false <-> b <= a.
Proof.
  rewrite <- not_true_iff_false, Qltb_lt. split.
  - apply Qnot_lt_le.
  - apply Qle_not_lt.
Qed.


(** ** Arithmetic over the program's constants *)

Ltac consts :=
  unfold birdX, birdRadius, GAME_HEIGHT, GAME_WIDTH, BIRD_SIZE, PIPE_WIDTH,
    PIPE_GAP, GRAVITY, JUMP_FORCE, PIPE_SPEED, MAX_VELOCITY, Qdiv in *;
  change (/ 2) with (1 # 2) in *; change (/ 4) with (1 # 4) in *.

Ltac qarith := consts; lra.

(** Turn boolean tests on numbers, in hypotheses and goal, into
    propositions. *)
Ltac reflect_tests :=
  repeat match goal with
         | H : _ && _ = true |- _ => apply andb_true_iff in H; destruct H
         | H : _ || _ = false |- _ => apply orb_false_iff in H; destruct H
         | H : negb _ = true |- _ => apply negb_true_iff in H
         | H : negb _ = false |- _ => apply negb_false_iff in H
         | H : Qltb _ _ = true |- _ => apply Qltb_lt in H
         | H : Qltb _ _ = false |- _ => apply Qltb_ge in H
         end.

(** ** [checkCollision] *)

Lemma spansOverlap_iff (pipe : Pipe) :
  spansOverlap pipe = true <->
  pipe_x pipe - PIPE_WIDTH / 2 < birdX + birdRadius /\
  birdX - birdRadius < pipe_x pipe + PIPE_WIDTH / 2.
Proof.
  unfold spansOverlap. now rewrite andb_true_iff, !Qltb_lt.
Qed.

Lemma outsideGap_iff (birdY : Q) (pipe : Pipe) :
  outsideGap birdY pipe = true <->
  birdY + birdRadius < pipe_gapY pipe - PIPE_GAP / 2 \/
  pipe_gapY pipe + PIPE_GAP / 2 < birdY - birdRadius.
Proof.
  unfold outsideGap. now rewrite orb_true_iff, !Qltb_lt.
Qed.

(** The loop answers [true] exactly when some pipe of the list passes both
    tests. *)
Lemma pipeLoop_existsb (birdY : Q) (pipes : list Pipe) :
  pipeLoop birdY pipes =
  existsb (fun pipe => spansOverlap pipe && outsideGap birdY pipe) pipes.
Proof.
  induction pipes as [|pipe rest IH]; simpl; [reflexivity|].
  rewrite IH. destruct (spansOverlap pipe), (outsideGap birdY pipe); reflexivity.
Qed.

Lemma pipeLoop_true_iff (birdY : Q) (pipes : list Pipe) :
  pipeLoop birdY pipes = true <->
  exists pipe, In pipe pipes /\ spansOverlap pipe = true /\
               outsideGap birdY pipe = true.
Proof.
  rewrite pipeLoop_existsb, existsb_exists.
  split; intros [pipe [Hin H]]; exists pipe; split; auto.
  - now apply andb_true_iff in H.
  - now apply andb_true_iff.
Qed.

Lemma pipeLoop_app (birdY : Q) (ps qs : list Pipe) :
  pipeLoop birdY (ps ++ qs) = pipeLoop birdY ps || pipeLoop birdY qs.
Proof.
  now rewrite !pipeLoop_existsb, existsb_app.
Qed.

Lemma outOfBounds_iff (birdY : Q) :
  Qltb 230 birdY || Qltb birdY (-230) = true <-> 230 < birdY \/ birdY < -230.
Proof.
  now rewrite orb_true_iff, !Qltb_lt.
Qed.

Lemma checkCollision_true_iff (pipes : list Pipe) (birdY : Q) :
  checkCollision pipes birdY = true <->
  (230 < birdY \/ birdY < -230) \/ pipeLoop birdY pipes = true.
Proof.
  unfold checkCollision. rewrite <- outOfBounds_iff.
  destruct (Qltb 230 birdY || Qltb birdY (-230)); intuition congruence.
Qed.

(** C1, as stated, fails: with the bird's centre at 225 and no pipes,
    [225 + birdRadius] exceeds 230 and yet [checkCollision] answers
    [false]. *)
Lemma checkCollision_radius_counterexample :
  ~ (checkCollision [] 225 = true <->
     230 < 225 + birdRadius \/ 225 - birdRadius < -230).
Proof.
  intros [_ H].
  assert (Hc : checkCollision [] 225 = false) by reflexivity.
  rewrite H in Hc; [discriminate|]. left. qarith.
Qed.

(** C1 (amended): [checkCollision] reports an out-of-bounds collision
    exactly when the bird's centre is beyond the bound, [birdY > 230] or
    [birdY < -230]; the radius is not added to the test.  For every pipe
    list the answer is [true] exactly when that bound test holds or the pipe
    loop finds a hit, and with no pipes exactly when the bound test holds. *)
Theorem checkCollision_bounds (pipes : list Pipe) (birdY : Q) :
  (checkCollision pipes birdY = true <->
   (230 < birdY \/ birdY < -230) \/ pipeLoop birdY pipes = true) /\
  (checkCollision [] birdY = true <-> 230 < birdY \/ birdY < -230).
Proof.
  split; [apply checkCollision_true_iff|].
  rewrite checkCollision_true_iff. simpl. intuition discriminate.
Qed.

(** What the pipe loop computes: for a bird within the vertical bounds,
    [checkCollision] answers [true] if and only if some pipe whose
    horizontal span shares more than an end point with the bird's span has
    [birdY + birdRadius] below [gapY - PIPE_GAP / 2] or
    [birdY - birdRadius] above [gapY + PIPE_GAP / 2], that is, has the
    bird's circle wholly beyond one edge of its gap. *)
Theorem checkCollision_pipes (pipes : list Pipe) (birdY : Q) :
  -230 <= birdY -> birdY <= 230 ->
  (checkCollision pipes birdY = true <->
   exists pipe,
     In pipe pipes /\
     (pipe_x pipe - PIPE_WIDTH / 2 < birdX + birdRadius /\
      birdX - birdRadius < pipe_x pipe + PIPE_WIDTH / 2) /\
     (birdY + birdRadius < pipe_gapY pipe - PIPE_GAP / 2 \/
      pipe_gapY pipe + PIPE_GAP / 2 < birdY - birdRadius)).
Proof.
  intros Hlo Hhi.
  rewrite checkCollision_true_iff, pipeLoop_true_iff.
  split.
  - intros [[H|H]|[pipe [Hin [Ho Hg]]]]; [exfalso; lra|exfalso; lra|].
    exists pipe. now rewrite <- spansOverlap_iff, <- outsideGap_iff.
  - intros [pipe [Hin [Ho Hg]]]. right. exists pipe.
    now rewrite spansOverlap_iff, outsideGap_iff.
Qed.

Lemma checkCollision_pipes_witness :
  -230 <= 100 /\ 100 <= 230 /\
  (checkCollision [mkPipe (-100) 0 false] 100 = true <->
   exists pipe,
     In pipe [mkPipe (-100) 0 false] /\
     (pipe_x pipe - PIPE_WIDTH / 2 < birdX + birdRadius /\
      birdX - birdRadius < pipe_x pipe + PIPE_WIDTH / 2) /\
     (100 + birdRadius < pipe_gapY pipe - PIPE_GAP / 2 \/
      pipe_gapY pipe + PIPE_GAP / 2 < 100 - birdRadius)).
Proof.
  split; [|split].
  - lra.
  - lra.
  - apply (checkCollision_pipes [mkPipe (-100) 0 false] 100); lra.
Defined.

(** C3, as stated, fails in two places.  A pipe at [x = -65] has its span
    from -90 to -40, which meets the bird's span from -110 to -90 in the
    point -90; the bird at 200 is far beyond the gap, and yet
    [checkCollision] answers [false].  And with a pipe at the bird's slot
    and the gap from -70 to 70, the circle of a bird at 75 reaches to 85 and
    so does not fit in the gap, and [checkCollision] answers [false]. *)
Lemma checkCollision_overlap_counterexample :
  (pipe_x (mkPipe (-65) 0 false) - PIPE_WIDTH / 2 <= birdX + birdRadius /\
   birdX - birdRadius <= pipe_x (mkPipe (-65) 0 false) + PIPE_WIDTH / 2) /\
  ~ (checkCollision [mkPipe (-65) 0 false] 200 = true <->
     200 + birdRadius < pipe_gapY (mkPipe (-65) 0 false) - PIPE_GAP / 2 \/
     200 - birdRadius > pipe_gapY (mkPipe (-65) 0 false) + PIPE_GAP / 2) /\
  (pipe_x (mkPipe (-100) 0 false) - PIPE_WIDTH / 2 < birdX + birdRadius /\
   birdX - birdRadius < pipe_x (mkPipe (-100) 0 false) + PIPE_WIDTH / 2) /\
  pipe_gapY (mkPipe (-100) 0 false) + PIPE_GAP / 2 < 75 + birdRadius /\
  checkCollision [mkPipe (-100) 0 false] 75 = false.
Proof.
  cbn [pipe_x pipe_gapY].
  split; [split; qarith|]. split.
  - intros [_ H].
    assert (Hc : checkCollision [mkPipe (-65) 0 false] 200 = false)
      by reflexivity.
    rewrite H in Hc; [discriminate|]. right. qarith.
  - split; [split; qarith|]. split; [qarith|reflexivity].
Qed.

(** C3 (amended): take a bird within the vertical bounds, and call a pipe
    overlapping when its horizontal span shares more than an end point with
    the bird's span.  If for some overlapping pipe [birdY + birdRadius] is
    below [gapY - PIPE_GAP / 2] or [birdY - birdRadius] is above
    [gapY + PIPE_GAP / 2], [checkCollision] reports a collision.  If for
    every overlapping pipe the bird's circle fits in the gap,
    [checkCollision] reports none; in particular pipes that do not overlap,
    or only touch, never cause a collision.  Nothing is said of a circle
    that straddles an edge of the gap. *)
Theorem checkCollision_gap (pipes : list Pipe) (birdY : Q) :
  -230 <= birdY -> birdY <= 230 ->
  ((exists pipe,
      In pipe pipes /\
      (pipe_x pipe - PIPE_WIDTH / 2 < birdX + birdRadius /\
       birdX - birdRadius < pipe_x pipe + PIPE_WIDTH / 2) /\
      (birdY + birdRadius < pipe_gapY pipe - PIPE_GAP / 2 \/
       birdY - birdRadius > pipe_gapY pipe + PIPE_GAP / 2)) ->
   checkCollision pipes birdY = true) /\
  ((forall pipe,
      In pipe pipes ->
      pipe_x pipe - PIPE_WIDTH / 2 < birdX + birdRadius ->
      birdX - birdRadius < pipe_x pipe + PIPE_WIDTH / 2 ->
      pipe_gapY pipe - PIPE_GAP / 2 <= birdY - birdRadius /\
      birdY + birdRadius <= pipe_gapY pipe + PIPE_GAP / 2) ->
   checkCollision pipes birdY = false) /\
  ((forall pipe,
      In pipe pipes ->
      birdX + birdRadius <= pipe_x pipe - PIPE_WIDTH / 2 \/
      pipe_x pipe + PIPE_WIDTH / 2 <= birdX - birdRadius) ->
   checkCollision pipes birdY = false).
Proof.
  intros Hlo Hhi.
  assert (Hnone :
            (forall pipe, In pipe pipes -> spansOverlap pipe = true ->
                          outsideGap birdY pipe = true -> False) ->
            checkCollision pipes birdY = false).
  { intros H. apply not_true_iff_false.
    rewrite checkCollision_true_iff, pipeLoop_true_iff.
    intros [[Hb|Hb]|[pipe [Hin [Ho Hg]]]]; [lra|lra|eauto]. }
  split; [|split].
  - intros [pipe [Hin [Ho Hg]]].
    apply checkCollision_true_iff. right. apply pipeLoop_true_iff.
    exists pipe. rewrite spansOverlap_iff, outsideGap_iff.
    split; [assumption|]. split; [assumption|].
    destruct Hg as [Hg|Hg]; [left|right]; assumption.
  - intros Hfit. apply Hnone. intros pipe Hin Ho Hg.
    apply spansOverlap_iff in Ho. destruct Ho as [Ho1 Ho2].
    destruct (Hfit pipe Hin Ho1 Ho2) as [Ht Hb].
    apply outsideGap_iff in Hg. destruct Hg; qarith.
  - intros Hoff. apply Hnone. intros pipe Hin Ho _.
    apply spansOverlap_iff in Ho. destruct Ho as [Ho1 Ho2].
    destruct (Hoff pipe Hin); lra.
Qed.

Lemma checkCollision_gap_witness :
  -230 <= 100 /\ 100 <= 230 /\
  checkCollision [mkPipe (-100) 0 false; mkPipe 35 0 false] 100 = true /\
  -230 <= 55 /\ 55 <= 230 /\
  checkCollision [mkPipe (-100) 0 false; mkPipe 35 0 false] 55 = false.
Proof.
  assert (H1 : -230 <= 100) by lra. assert (H2 : 100 <= 230) by lra.
  assert (H3 : -230 <= 55) by lra. assert (H4 : 55 <= 230) by lra.
  split; [exact H1|]. split; [exact H2|]. split.
  - apply (proj1 (checkCollision_gap
                    [mkPipe (-100) 0 false; mkPipe 35 0 false] 100 H1 H2)).
    exists (mkPipe (-100) 0 false). cbn [pipe_x pipe_gapY].
    split; [left; reflexivity|]. split; [split; qarith|]. right. qarith.
  - split; [exact H3|]. split; [exact H4|].
    apply (proj1 (proj2 (checkCollision_gap
                           [mkPipe (-100) 0 false; mkPipe 35 0 false] 55 H3 H4))).
    intros pipe [<-|[<-|[]]]; cbn [pipe_x pipe_gapY]; intros Ha Hb.
    + split; qarith.
    + exfalso. qarith.
Defined.

(** The examples of the specification, at the bird's slot [birdX = -100]. *)
Example checkCollision_examples :
  checkCollision [] 0 = false /\
  checkCollision [] 235 = true /\
  checkCollision [mkPipe birdX 0 false] 100 = true /\
  checkCollision [mkPipe birdX 0 false] 0 = false.
Proof. repeat split; reflexivity. Qed.

(** A pipe whose left edge just touches the bird's right edge is not tested
    against the gap. *)
Example touching_spans_do_not_collide :
  checkCollision [mkPipe (-65) 0 false] 200 = false.
Proof. reflexivity. Qed.

(** ** The bird *)

Lemma clamp_max_min (v : Q) :
  Qmax (-0.5) (Qmin 0.5 v) == clamp v (-0.5) 0.5.
Proof.
  unfold clamp.
  destruct (Qltb v (-0.5)) eqn:Hlo; [|destruct (Qltb 0.5 v) eqn:Hhi];
    reflect_tests.
  - rewrite Q.max_l; [reflexivity|].
    rewrite Q.min_r; lra.
  - rewrite Q.min_l by lra. rewrite Q.max_r; [reflexivity|lra].
  - rewrite Q.min_r by lra. rewrite Q.max_r; [reflexivity|lra].
Qed.

Lemma clamp_range (v : Q) : -0.5 <= clamp v (-0.5) 0.5 /\ clamp v (-0.5) 0.5 <= 0.5.
Proof.
  unfold clamp.
  destruct (Qltb v (-0.5)) eqn:Hlo; [|destruct (Qltb 0.5 v) eqn:Hhi];
    reflect_tests; lra.
Qed.

Lemma gameLoop_playing (currentTime : Z) (random : Q) (g : Game) :
  gameState g = playing ->
  gameLoop true currentTime random g =
  let filtered := filterPipes (pipesRef g) in
  let spawned := trySpawn currentTime random (lastPipeTime g) in
  let pipes :=
    match spawned with
    | Some pipe => fst filtered ++ [pipe]
    | None => fst filtered
    end in
  let hit := checkCollision pipes (bird_y (newBird (bird g))) in
  mkGame (newBird (bird g))
         (if hit then gameOver else playing)
         (score g + snd filtered)%Z
         (if hit then Z.max (highScore g) (score g) else highScore g)
         pipes
         (match spawned with Some _ => currentTime | None => lastPipeTime g end).
Proof.
  intros Hp. unfold gameLoop. rewrite Hp. reflexivity.
Qed.

Lemma gameLoop_idle (clockReady : bool) (currentTime : Z) (random : Q)
    (g : Game) :
  gameState g <> playing \/ clockReady = false ->
  gameLoop clockReady currentTime random g = g.
Proof.
  intros H. unfold gameLoop.
  destruct (gameState g), clockReady; simpl; try reflexivity;
    destruct H; congruence.
Qed.

(** C6: in every frame of a playing game the new velocity is
    [min (velocity + GRAVITY) MAX_VELOCITY], hence never above
    [MAX_VELOCITY], and the new tilt is the clamp of [velocity * 0.05] to
    the interval from -0.5 to 0.5, hence within it, whatever the velocity. *)
Theorem newBird_velocity_tilt (currentTime : Z) (random : Q) (g : Game) :
  gameState g = playing ->
  let b := bird (gameLoop true currentTime random g) in
  b = newBird (bird g) /\
  bird_velocity b = Qmin (bird_velocity (bird g) + GRAVITY) MAX_VELOCITY /\
  bird_velocity b <= MAX_VELOCITY /\
  bird_y b = bird_y (bird g) + bird_velocity b /\
  bird_rotation b == clamp (bird_velocity b * 0.05) (-0.5) 0.5 /\
  -0.5 <= bird_rotation b /\ bird_rotation b <= 0.5.
Proof.
  intros Hp b. subst b. rewrite (gameLoop_playing _ _ _ Hp). cbn [bird].
  split; [reflexivity|]. split; [reflexivity|].
  split; [apply Q.le_min_r|]. split; [reflexivity|].
  cbn [newBird bird_rotation bird_velocity].
  split; [apply clamp_max_min|].
  rewrite clamp_max_min. apply clamp_range.
Qed.

Lemma newBird_velocity_tilt_witness :
  gameState (mkGame (mkBird 0 1000 0) playing 0%Z 0%Z [] 0%Z) = playing /\
  bird_velocity
    (bird (gameLoop true 0%Z 0 (mkGame (mkBird 0 1000 0) playing 0%Z 0%Z [] 0%Z)))
  <= MAX_VELOCITY /\
  bird_rotation
    (bird (gameLoop true 0%Z 0 (mkGame (mkBird 0 1000 0) playing 0%Z 0%Z [] 0%Z)))
  <= 0.5.
Proof.
  split; [reflexivity|].
  pose proof (newBird_velocity_tilt 0%Z 0
                (mkGame (mkBird 0 1000 0) playing 0%Z 0%Z [] 0%Z) eq_refl) as H.
  cbv zeta in H. tauto.
Defined.

(** ** Spawning *)

Lemma trySpawn_some (currentTime : Z) (random : Q) (last : Z) :
  (3000 < currentTime - last)%Z ->
  trySpawn currentTime random last = Some (newPipe random).
Proof.
  intros H. unfold trySpawn. now apply Z.ltb_lt in H; rewrite H.
Qed.

Lemma trySpawn_none (currentTime : Z) (random : Q) (last : Z) :
  ~ (3000 < currentTime - last)%Z ->
  trySpawn currentTime random last = None.
Proof.
  intros H. unfold trySpawn.
  destruct (3000 <? currentTime - last)%Z eqn:E; [|reflexivity].
  now apply Z.ltb_lt in E.
Qed.

Lemma trySpawn_inv (currentTime : Z) (random : Q) (last : Z) (pipe : Pipe) :
  trySpawn currentTime random last = Some pipe ->
  (3000 < currentTime - last)%Z /\ pipe = newPipe random.
Proof.
  unfold trySpawn. destruct (3000 <? currentTime - last)%Z eqn:E; [|discriminate].
  intros [= <-]. split; [now apply Z.ltb_lt|reflexivity].
Qed.

Lemma newPipe_x (random : Q) : pipe_x (newPipe random) == 250.
Proof. reflexivity. Qed.

Lemma newPipe_gapY (random : Q) :
  0 <= random -> random < 1 ->
  -100 <= pipe_gapY (newPipe random) /\ pipe_gapY (newPipe random) < 100.
Proof.
  intros H0 H1. cbn [newPipe pipe_gapY]. lra.
Qed.

(** C7, as stated, fails: the pipe [trySpawn] returns does not sit at the
    right world edge [GAME_WIDTH / 2]. *)
Lemma trySpawn_edge_counterexample :
  exists pipe,
    trySpawn 3001%Z 0 0%Z = Some pipe /\ ~ pipe_x pipe == rightWorldEdge.
Proof.
  exists (newPipe 0). split; [reflexivity|]. intros H. discriminate H.
Qed.

(** C7 (amended): in a frame of a playing game a pipe is created exactly
    when [currentTime - lastPipeTime > 3000]; it is appended behind the
    pipes kept by the filter and [lastPipeTime] becomes [currentTime];
    its [x] is one pipe width to the right of the right world edge
    ([GAME_WIDTH / 2 + PIPE_WIDTH], which is 250).  Otherwise no pipe is
    created in that frame and [lastPipeTime] is left alone. *)
Theorem trySpawn_interval (currentTime : Z) (random : Q) (g : Game) :
  gameState g = playing ->
  ((3000 < currentTime - lastPipeTime g)%Z ->
   trySpawn currentTime random (lastPipeTime g) = Some (newPipe random) /\
   pipesRef (gameLoop true currentTime random g) =
     fst (filterPipes (pipesRef g)) ++ [newPipe random] /\
   lastPipeTime (gameLoop true currentTime random g) = currentTime) /\
  (~ (3000 < currentTime - lastPipeTime g)%Z ->
   trySpawn currentTime random (lastPipeTime g) = None /\
   pipesRef (gameLoop true currentTime random g) =
     fst (filterPipes (pipesRef g)) /\
   lastPipeTime (gameLoop true currentTime random g) = lastPipeTime g) /\
  pipe_x (newPipe random) = rightWorldEdge + PIPE_WIDTH /\
  pipe_x (newPipe random) == 250 /\
  pipe_passed (newPipe random) = false.
Proof.
  intros Hp. rewrite (gameLoop_playing _ _ _ Hp).
  split; [|split].
  - intros H. rewrite (trySpawn_some _ random _ H). cbn. auto.
  - intros H. rewrite (trySpawn_none _ random _ H). cbn. auto.
  - repeat split.
Qed.

Lemma trySpawn_interval_witness :
  gameState (mkGame initialBird playing 0%Z 0%Z [] 2000%Z) = playing /\
  ((3000 < 5001 - 2000)%Z ->
   pipesRef (gameLoop true 5001%Z 0.5
               (mkGame initialBird playing 0%Z 0%Z [] 2000%Z))
   = [] ++ [newPipe 0.5]) /\
  (~ (3000 < 5000 - 2000)%Z ->
   pipesRef (gameLoop true 5000%Z 0.5
               (mkGame initialBird playing 0%Z 0%Z [] 2000%Z))
   = []).
Proof.
  split; [reflexivity|]. split.
  - intros H.
    apply (trySpawn_interval 5001%Z 0.5
             (mkGame initialBird playing 0%Z 0%Z [] 2000%Z) eq_refl).
    exact H.
  - intros H.
    apply (trySpawn_interval 5000%Z 0.5
             (mkGame initialBird playing 0%Z 0%Z [] 2000%Z) eq_refl).
    exact H.
Defined.

(** C8: whatever number of the half-open interval from 0 to 1
    [Math.random()] yields, a pipe returned by [trySpawn] has its [gapY]
    between -100 and 100. *)
Theorem trySpawn_gapY (currentTime : Z) (random : Q) (last : Z) (pipe : Pipe) :
  0 <= random -> random < 1 ->
  trySpawn currentTime random last = Some pipe ->
  -100 <= pipe_gapY pipe /\ pipe_gapY pipe <= 100.
Proof.
  intros H0 H1 Hs. apply trySpawn_inv in Hs. destruct Hs as [_ ->].
  destruct (newPipe_gapY random H0 H1). split; lra.
Qed.

Lemma trySpawn_gapY_witness :
  0 <= 0.5 /\ 0.5 < 1 /\
  trySpawn 5000%Z 0.5 0%Z = Some (newPipe 0.5) /\
  -100 <= pipe_gapY (newPipe 0.5) /\ pipe_gapY (newPipe 0.5) <= 100.
Proof.
  split; [lra|]. split; [lra|]. split; [reflexivity|].
  apply (trySpawn_gapY 5000%Z 0.5 0%Z (newPipe 0.5)); [lra|lra|reflexivity].
Defined.

(** ** The filter callback *)

Lemma filterCallback_cases (pipe : Pipe) :
  let x := pipe_x pipe - PIPE_SPEED in
  (x < - GAME_WIDTH / 2 - PIPE_WIDTH /\
   filterCallback pipe =
     mkFiltered (mkPipe x (pipe_gapY pipe) (pipe_passed pipe)) false 0) \/
  (- GAME_WIDTH / 2 - PIPE_WIDTH <= x /\ pipe_passed pipe = false /\
   x + PIPE_WIDTH / 2 < - GAME_WIDTH / 4 /\
   filterCallback pipe = mkFiltered (mkPipe x (pipe_gapY pipe) true) true 1) \/
  (- GAME_WIDTH / 2 - PIPE_WIDTH <= x /\
   (pipe_passed pipe = true \/ - GAME_WIDTH / 4 <= x + PIPE_WIDTH / 2) /\
   filterCallback pipe =
     mkFiltered (mkPipe x (pipe_gapY pipe) (pipe_passed pipe)) true 0).
Proof.
  intros x. unfold filterCallback. fold x.
  destruct (Qltb x (- GAME_WIDTH / 2 - PIPE_WIDTH)) eqn:Hoff.
  - left. reflect_tests. auto.
  - right.
    destruct (negb (pipe_passed pipe) &&
              Qltb (x + PIPE_WIDTH / 2) (- GAME_WIDTH / 4)) eqn:Hpass.
    + left. reflect_tests. auto.
    + right. reflect_tests. split; [assumption|]. split; [|reflexivity].
      apply andb_false_iff in Hpass. destruct Hpass; reflect_tests; auto.
Qed.

Lemma filterCallback_inv (pipe : Pipe) :
  pipeInv pipe -> f_keep (filterCallback pipe) = true ->
  pipeInv (f_pipe (filterCallback pipe)).
Proof.
  intros [Hflag [Hlo [Hhi Hgap]]] Hkeep.
  destruct (filterCallback_cases pipe) as [[_ E]|[[Hx [Hp [Hc E]]]|[Hx [Hc E]]]];
    rewrite E in *; cbn [f_pipe f_keep] in *; [discriminate| |].
  - unfold pipeInv; cbn [pipe_x pipe_gapY pipe_passed].
    repeat split; try tauto; try qarith.
  - unfold pipeInv; cbn [pipe_x pipe_gapY pipe_passed].
    split; [|repeat split; try tauto; qarith].
    split.
    + intros Hp. apply Hflag in Hp. qarith.
    + intros Hlt. destruct Hc as [Hc|Hc]; [assumption|]. exfalso. qarith.
Qed.

Lemma filterPipes_inv (pipes : list Pipe) :
  Forall pipeInv pipes -> Forall pipeInv (fst (filterPipes pipes)).
Proof.
  induction 1 as [|pipe rest Hp _ IH]; cbn [filterPipes fst]; [constructor|].
  destruct (f_keep (filterCallback pipe)) eqn:Hkeep; [|assumption].
  constructor; [now apply filterCallback_inv|assumption].
Qed.

Lemma newPipe_inv (random : Q) :
  0 <= random -> random < 1 -> pipeInv (newPipe random).
Proof.
  intros H0 H1. unfold pipeInv. cbn [newPipe pipe_x pipe_gapY pipe_passed].
  split; [|repeat split; qarith].
  split; [discriminate|]. intros H. exfalso. qarith.
Qed.

(** ** Invariants of runs *)

Lemma handleJump_inv (g : Game) : gameInv g -> gameInv (handleJump g).
Proof.
  intros [Hpipes [Hvel Hwait]]. unfold handleJump, gameInv.
  destruct (gameState g) eqn:Hs; cbn.
  - repeat split; auto; discriminate.
  - repeat split; auto; try congruence. qarith.
  - repeat split; auto. qarith.
Qed.

Lemma gameLoop_inv (clockReady : bool) (currentTime : Z) (random : Q)
    (g : Game) :
  0 <= random -> random < 1 -> gameInv g ->
  gameInv (gameLoop clockReady currentTime random g).
Proof.
  intros H0 H1 Hinv.
  destruct clockReady; [|now rewrite gameLoop_idle by auto].
  destruct (gameState g) eqn:Hs;
    [rewrite gameLoop_idle by (left; congruence); assumption| |
     rewrite gameLoop_idle by (left; congruence); assumption].
  destruct Hinv as [Hpipes [Hvel Hwait]].
  rewrite (gameLoop_playing _ _ _ Hs). unfold gameInv. cbn.
  split; [|split].
  - destruct (trySpawn currentTime random (lastPipeTime g)) eqn:Hsp.
    + apply trySpawn_inv in Hsp. destruct Hsp as [_ ->].
      apply Forall_app. split; [now apply filterPipes_inv|].
      constructor; [now apply newPipe_inv|constructor].
    + now apply filterPipes_inv.
  - apply Q.le_min_r.
  - destruct (checkCollision _ _); discriminate.
Qed.

Lemma reachable_inv (g : Game) : reachable g -> gameInv g.
Proof.
  induction 1 as [|e g _ IH Hv].
  - unfold gameInv, initialGame; cbn.
    repeat split; auto. qarith.
  - destruct e as [|clockReady currentTime random]; cbn [step].
    + now apply handleJump_inv.
    + destruct Hv. now apply gameLoop_inv.
Qed.

Lemma validEventb_sound (e : Event) : validEventb e = true -> validEvent e.
Proof.
  destruct e as [|c t r]; cbn; [trivial|].
  intros H. apply andb_true_iff in H. destruct H as [H0 H1].
  split; [now apply Qle_bool_iff|now apply Qltb_lt].
Qed.

Lemma reachable_run (events : list Event) (g : Game) :
  reachable g -> forallb validEventb events = true -> reachable (run events g).
Proof.
  revert g. induction events as [|e rest IH]; intros g Hg Hv; cbn in *;
    [assumption|].
  apply andb_true_iff in Hv. destruct Hv as [He Hrest].
  apply IH; [|assumption].
  constructor; [assumption|now apply validEventb_sound].
Qed.

(** ** [handleJump] *)

(** C4: [handleJump] is defined in every state.  While waiting it starts
    play, the score being 0; while playing it sets the velocity to
    [JUMP_FORCE]; after game over it empties the pipe list, resets the bird
    and the score and returns to waiting, never to playing, so that a second
    action is what starts play again. *)
Theorem handleJump_by_state (g : Game) :
  reachable g ->
  match gameState g with
  | waiting =>
      gameState (handleJump g) = playing /\
      score (handleJump g) = 0%Z /\
      bird (handleJump g) = bird g /\
      pipesRef (handleJump g) = pipesRef g /\
      highScore (handleJump g) = highScore g
  | playing =>
      gameState (handleJump g) = playing /\
      bird (handleJump g) =
        mkBird (bird_y (bird g)) JUMP_FORCE (bird_rotation (bird g)) /\
      score (handleJump g) = score g /\
      pipesRef (handleJump g) = pipesRef g /\
      highScore (handleJump g) = highScore g
  | gameOver =>
      gameState (handleJump g) = waiting /\
      pipesRef (handleJump g) = [] /\
      bird (handleJump g) = mkBird 0 0 0 /\
      score (handleJump g) = 0%Z /\
      lastPipeTime (handleJump g) = 0%Z /\
      highScore (handleJump g) = highScore g /\
      gameState (handleJump (handleJump g)) = playing /\
      score (handleJump (handleJump g)) = 0%Z
  end.
Proof.
  intros Hr. apply reachable_inv in Hr. destruct Hr as [_ [_ Hwait]].
  unfold handleJump. destruct (gameState g) eqn:Hs; cbn.
  - destruct (Hwait eq_refl) as [Hscore _]. repeat split. exact Hscore.
  - rewrite Hs. repeat split.
  - repeat split.
Qed.

Lemma handleJump_by_state_witness :
  reachable (run (fallingRun 60) initialGame) /\
  gameState (run (fallingRun 60) initialGame) = gameOver /\
  gameState (handleJump (run (fallingRun 60) initialGame)) = waiting /\
  pipesRef (handleJump (run (fallingRun 60) initialGame)) = [] /\
  gameState (handleJump (handleJump (run (fallingRun 60) initialGame)))
  = playing.
Proof.
  assert (Hr : reachable (run (fallingRun 60) initialGame))
    by (apply reachable_run; [constructor|reflexivity]).
  split; [exact Hr|]. split; [vm_compute; reflexivity|].
  pose proof (handleJump_by_state _ Hr) as H.
  replace (gameState (run (fallingRun 60) initialGame)) with gameOver in H
    by (vm_compute; reflexivity).
  tauto.
Defined.

(** C10: [lastPipeTime] is 0 at the start and is 0 again whenever the game
    is back to waiting; so the first frame after the action that starts
    play, at any clock time above 3000 ms, meets the spawn test and creates
    a pipe at once. *)
Theorem first_frame_spawns (currentTime : Z) (random : Q) (g : Game) :
  reachable g -> gameState g = waiting -> (3000 < currentTime)%Z ->
  lastPipeTime initialGame = 0%Z /\
  (forall over, gameState over = gameOver ->
                lastPipeTime (handleJump over) = 0%Z) /\
  lastPipeTime g = 0%Z /\
  lastPipeTime (handleJump g) = 0%Z /\
  trySpawn currentTime random (lastPipeTime (handleJump g))
  = Some (newPipe random) /\
  pipesRef (gameLoop true currentTime random (handleJump g))
  = [newPipe random] /\
  lastPipeTime (gameLoop true currentTime random (handleJump g))
  = currentTime.
Proof.
  intros Hr Hs Hnow.
  destruct (reachable_inv g Hr) as [_ [_ Hwait]].
  destruct (Hwait Hs) as [_ [Hpipes [Hlast _]]].
  assert (Hj : handleJump g = setGameState playing g)
    by (unfold handleJump; rewrite Hs; reflexivity).
  split; [reflexivity|].
  split; [intros over Ho; unfold handleJump; rewrite Ho; reflexivity|].
  split; [assumption|].
  rewrite Hj. cbn [setGameState lastPipeTime].
  split; [assumption|].
  assert (Hsp : trySpawn currentTime random (lastPipeTime g)
                = Some (newPipe random))
    by (apply trySpawn_some; lia).
  split; [assumption|].
  rewrite gameLoop_playing by reflexivity.
  cbn [setGameState lastPipeTime pipesRef]. rewrite Hsp, Hpipes. cbn.
  split; reflexivity.
Qed.

Lemma first_frame_spawns_witness :
  reachable initialGame /\ gameState initialGame = waiting /\
  (3000 < 5000)%Z /\
  pipesRef (gameLoop true 5000%Z 0.5 (handleJump initialGame))
  = [newPipe 0.5].
Proof.
  split; [constructor|]. split; [reflexivity|]. split; [lia|].
  apply (first_frame_spawns 5000%Z 0.5 initialGame);
    [constructor|reflexivity|lia].
Defined.

(** ** Passing a pipe *)

Lemma filterCallback_scored_flips (pipe : Pipe) :
  f_scored (filterCallback pipe) = if flips pipe then 1%Z else 0%Z.
Proof.
  unfold flips.
  destruct (filterCallback_cases pipe) as [[_ E]|[[_ [Hp [_ E]]]|[_ [_ E]]]];
    rewrite E; cbn [f_scored f_keep f_pipe pipe_passed].
  - now rewrite andb_false_r.
  - now rewrite Hp.
  - now destruct (pipe_passed pipe).
Qed.

Lemma filterPipes_scored (pipes : list Pipe) :
  snd (filterPipes pipes) = Z.of_nat (length (filter flips pipes)).
Proof.
  induction pipes as [|pipe rest IH]; [reflexivity|].
  cbn [filterPipes snd filter]. rewrite IH, filterCallback_scored_flips.
  destruct (flips pipe); cbn [length]; lia.
Qed.

Lemma filterCallback_passed_stays (pipe : Pipe) :
  pipe_passed pipe = true ->
  pipe_passed (f_pipe (filterCallback pipe)) = true /\
  f_scored (filterCallback pipe) = 0%Z.
Proof.
  intros Hp.
  destruct (filterCallback_cases pipe) as [[_ E]|[[_ [Hf _]]|[_ [_ E]]]];
    try congruence; rewrite E; cbn; auto.
Qed.

Lemma lifetimeScored_passed (n : nat) (pipe : Pipe) :
  pipe_passed pipe = true -> lifetimeScored n pipe = 0%Z.
Proof.
  revert pipe. induction n as [|m IH]; intros pipe Hp; [reflexivity|].
  cbn [lifetimeScored].
  destruct (filterCallback_passed_stays pipe Hp) as [Hp' ->].
  destruct (f_keep (filterCallback pipe)); [|reflexivity].
  now rewrite IH.
Qed.

Lemma lifetimeScored_range (n : nat) (pipe : Pipe) :
  (0 <= lifetimeScored n pipe <= 1)%Z.
Proof.
  revert pipe. induction n as [|m IH]; intros pipe; cbn [lifetimeScored];
    [lia|].
  destruct (filterCallback_cases pipe) as [[_ E]|[[_ [_ [_ E]]]|[_ [_ E]]]];
    rewrite E; cbn [f_scored f_keep f_pipe].
  - lia.
  - rewrite lifetimeScored_passed by reflexivity. lia.
  - specialize (IH (mkPipe (pipe_x pipe - PIPE_SPEED) (pipe_gapY pipe)
                           (pipe_passed pipe))). lia.
Qed.

Lemma lifetimeScored_removed (n m : nat) (pipe : Pipe) :
  pipeAfter n pipe = None ->
  lifetimeScored (n + m) pipe = lifetimeScored n pipe.
Proof.
  revert pipe. induction n as [|k IH]; intros pipe Hgone; [discriminate|].
  cbn [Nat.add lifetimeScored pipeAfter] in *.
  destruct (f_keep (filterCallback pipe)); [|reflexivity].
  now rewrite IH.
Qed.

(** A pipe that has gone [k] frames from the spawn position without being
    flagged is scored exactly once, in frame [251] of its life. *)
Lemma lifetimeScored_from (n k : nat) (pipe : Pipe) :
  (k <= 250)%nat ->
  pipe_passed pipe = false ->
  pipe_x pipe == 250 - 1.5 * inject_Z (Z.of_nat k) ->
  lifetimeScored n pipe = if (n <=? 250 - k)%nat then 0%Z else 1%Z.
Proof.
  revert k pipe. induction n as [|m IH]; intros k pipe Hk Hp Hx;
    [reflexivity|].
  cbn [lifetimeScored].
  assert (Hk' : inject_Z (Z.of_nat k) <= 250)
    by (change 250 with (inject_Z 250); rewrite <- Zle_Qle; lia).
  destruct (filterCallback_cases pipe)
    as [[Hoff _]|[[_ [_ [Hc E]]]|[_ [[Hf|Hc] E]]]]; cbn zeta in *.
  - exfalso. qarith.
  - rewrite E; cbn [f_scored f_keep f_pipe].
    rewrite lifetimeScored_passed by reflexivity.
    assert (k = 250)%nat as ->.
    { destruct (Nat.eq_dec k 250) as [|Hne]; [assumption|exfalso].
      assert (Hlt : inject_Z (Z.of_nat k) <= 249)
        by (change 249 with (inject_Z 249); rewrite <- Zle_Qle; lia).
      qarith. }
    reflexivity.
  - congruence.
  - rewrite E; cbn [f_scored f_keep f_pipe].
    assert (Hlt : (k < 250)%nat).
    { destruct (Nat.eq_dec k 250) as [->|Hne]; [exfalso|lia].
      change (inject_Z (Z.of_nat 250)) with 250 in Hx. qarith. }
    rewrite (IH (S k)); [|lia|exact Hp|].
    + replace (250 - k)%nat with (S (250 - S k)) by lia. reflexivity.
    + cbn [pipe_x]. rewrite Nat2Z.inj_succ. unfold Z.succ.
      rewrite inject_Z_plus. change (inject_Z 1) with 1. qarith.
Qed.

Lemma newPipe_scored_once (random : Q) (n : nat) :
  lifetimeScored n (newPipe random) = if (n <=? 250)%nat then 0%Z else 1%Z.
Proof.
  rewrite (lifetimeScored_from n 0); [reflexivity|lia|reflexivity|reflexivity].
Qed.

(** C5: for a pipe of a game in play, the callback turns [passed] from
    [false] to [true] exactly in the frame in which the pipe's right edge
    first gets strictly left of the bird's centre, and queues one score
    update exactly then; a flag that is set stays set; the score of the
    frame grows by the number of pipes flagged in it; over any number of
    frames one pipe is scored at most once, never once it is flagged and
    never after its removal. *)
Theorem passed_once (currentTime : Z) (random : Q) (g : Game) (pipe : Pipe)
    (n m : nat) :
  reachable g -> gameState g = playing -> In pipe (pipesRef g) ->
  (flips pipe = true <->
   birdX <= pipe_x pipe + PIPE_WIDTH / 2 /\
   pipe_x (f_pipe (filterCallback pipe)) + PIPE_WIDTH / 2 < birdX) /\
  f_scored (filterCallback pipe) = (if flips pipe then 1%Z else 0%Z) /\
  (pipe_passed pipe = true ->
   pipe_passed (f_pipe (filterCallback pipe)) = true) /\
  score (gameLoop true currentTime random g)
  = (score g + Z.of_nat (length (filter flips (pipesRef g))))%Z /\
  (0 <= lifetimeScored n pipe <= 1)%Z /\
  (pipe_passed pipe = true -> lifetimeScored n pipe = 0%Z) /\
  (pipeAfter n pipe = None ->
   lifetimeScored (n + m) pipe = lifetimeScored n pipe).
Proof.
  intros Hr Hs Hin.
  destruct (reachable_inv g Hr) as [Hpipes _].
  rewrite Forall_forall in Hpipes. specialize (Hpipes pipe Hin).
  destruct Hpipes as [Hflag [Hlo [Hhi Hgap]]].
  split; [|split; [|split; [|split; [|split; [|split]]]]].
  - unfold flips.
    destruct (filterCallback_cases pipe)
      as [[Hoff E]|[[Hon [Hp [Hc E]]]|[Hon [Hc E]]]];
      rewrite E; cbn [f_keep f_pipe pipe_x pipe_passed]; cbn zeta in *.
    + rewrite andb_false_r. cbn. split; [discriminate|].
      intros [H1 H2]. exfalso. qarith.
    + rewrite Hp. cbn. split; [intros _|reflexivity].
      split; [|qarith].
      destruct (Qlt_le_dec (pipe_x pipe + PIPE_WIDTH / 2) birdX) as [Hlt|Hge];
        [|assumption].
      apply Hflag in Hlt. congruence.
    + split.
      * intros H. destruct (pipe_passed pipe); discriminate.
      * intros [H1 H2]. exfalso. destruct Hc as [Hc|Hc]; [|qarith].
        apply Hflag in Hc. qarith.
  - apply filterCallback_scored_flips.
  - intros Hp. now apply filterCallback_passed_stays.
  - rewrite (gameLoop_playing _ _ _ Hs). cbn [score].
    now rewrite filterPipes_scored.
  - apply lifetimeScored_range.
  - apply lifetimeScored_passed.
  - apply lifetimeScored_removed.
Qed.

Lemma passed_once_witness :
  reachable (run [Action; Frame true 5000%Z 0.5] initialGame) /\
  gameState (run [Action; Frame true 5000%Z 0.5] initialGame) = playing /\
  In (newPipe 0.5) (pipesRef (run [Action; Frame true 5000%Z 0.5] initialGame))
  /\
  (0 <= lifetimeScored 400 (newPipe 0.5) <= 1)%Z.
Proof.
  assert (Hr : reachable (run [Action; Frame true 5000%Z 0.5] initialGame))
    by (apply reachable_run; [constructor|reflexivity]).
  assert (Hin : In (newPipe 0.5)
                  (pipesRef (run [Action; Frame true 5000%Z 0.5] initialGame)))
    by (left; reflexivity).
  split; [exact Hr|]. split; [reflexivity|]. split; [exact Hin|].
  apply (passed_once 0%Z 0 _ (newPipe 0.5) 400 0 Hr eq_refl Hin).
Defined.

(** A spawned pipe is scored in frame 251 of its life and is gone after
    frame 334. *)
Example newPipe_lifetime :
  lifetimeScored 250 (newPipe 0.5) = 0%Z /\
  lifetimeScored 251 (newPipe 0.5) = 1%Z /\
  lifetimeScored 400 (newPipe 0.5) = 1%Z /\
  pipeAfter 333 (newPipe 0.5) <> None /\
  pipeAfter 334 (newPipe 0.5) = None.
Proof.
  rewrite !newPipe_scored_once. repeat split; try reflexivity.
  vm_compute. discriminate.
Qed.

(** ** The order of the obstacle operations *)

Lemma filterPipes_staged (pipes : list Pipe) :
  filterPipes pipes = markPassed (retireOffscreen (advance pipes)).
Proof.
  induction pipes as [|pipe rest IH]; [reflexivity|].
  cbn [filterPipes advance map retireOffscreen filter]. rewrite IH.
  unfold filterCallback, offscreen at 1. cbn [pipe_x].
  destruct (Qltb (pipe_x pipe - PIPE_SPEED) (- GAME_WIDTH / 2 - PIPE_WIDTH));
    cbn [negb f_keep f_pipe f_scored].
  - fold (advance rest). fold (retireOffscreen (advance rest)).
    destruct (markPassed (retireOffscreen (advance rest))); reflexivity.
  - fold (advance rest). fold (retireOffscreen (advance rest)).
    cbn [markPassed]. unfold behindBird. cbn [pipe_x pipe_passed pipe_gapY].
    destruct (negb (pipe_passed pipe) &&
              Qltb (pipe_x pipe - PIPE_SPEED + PIPE_WIDTH / 2)
                   (- GAME_WIDTH / 4)) eqn:E;
      cbn [f_keep f_pipe f_scored fst snd]; [reflexivity|].
    destruct (markPassed (retireOffscreen (advance rest))); reflexivity.
Qed.

Lemma removed_was_passed (pipe : Pipe) :
  pipeInv pipe -> f_keep (filterCallback pipe) = false ->
  pipe_passed pipe = true.
Proof.
  intros [Hflag _] Hkeep.
  destruct (filterCallback_cases pipe) as [[Hoff _]|[[_ [_ [_ E]]]|[_ [_ E]]]];
    try (rewrite E in Hkeep; discriminate).
  cbn zeta in Hoff. apply Hflag. qarith.
Qed.

Lemma checkCollision_spawned (pipes : list Pipe) (random birdY : Q) :
  checkCollision (pipes ++ [newPipe random]) birdY = checkCollision pipes birdY.
Proof.
  unfold checkCollision. rewrite pipeLoop_app.
  replace (pipeLoop birdY [newPipe random]) with false by reflexivity.
  now rewrite orb_false_r.
Qed.

(** C9: a frame of a game in play treats the pipes as if it advanced them
    all, then retired the off-screen ones, then flagged the passed ones, and
    only then spawned; a pipe that the frame retires already carries its
    flag, so no pass goes unrecorded; and the collision test of the frame
    gives the same answer with and without the pipe spawned in it. *)
Theorem frame_order (currentTime : Z) (random : Q) (g : Game) :
  reachable g -> gameState g = playing ->
  filterPipes (pipesRef g)
  = markPassed (retireOffscreen (advance (pipesRef g))) /\
  pipesRef (gameLoop true currentTime random g)
  = fst (markPassed (retireOffscreen (advance (pipesRef g)))) ++
    match trySpawn currentTime random (lastPipeTime g) with
    | Some pipe => [pipe]
    | None => []
    end /\
  score (gameLoop true currentTime random g)
  = (score g + snd (markPassed (retireOffscreen (advance (pipesRef g)))))%Z /\
  (forall pipe, In pipe (pipesRef g) ->
                f_keep (filterCallback pipe) = false ->
                pipe_passed pipe = true) /\
  checkCollision (pipesRef (gameLoop true currentTime random g))
                 (bird_y (bird (gameLoop true currentTime random g)))
  = checkCollision (fst (filterPipes (pipesRef g)))
                   (bird_y (newBird (bird g))) /\
  (gameState (gameLoop true currentTime random g) = gameOver <->
   checkCollision (fst (filterPipes (pipesRef g)))
                  (bird_y (newBird (bird g))) = true).
Proof.
  intros Hr Hs.
  destruct (reachable_inv g Hr) as [Hpipes _].
  assert (Hhit : checkCollision
                   (match trySpawn currentTime random (lastPipeTime g) with
                    | Some pipe => fst (filterPipes (pipesRef g)) ++ [pipe]
                    | None => fst (filterPipes (pipesRef g))
                    end)
                   (bird_y (newBird (bird g)))
                 = checkCollision (fst (filterPipes (pipesRef g)))
                                  (bird_y (newBird (bird g)))).
  { destruct (trySpawn currentTime random (lastPipeTime g)) eqn:Hsp;
      [|reflexivity].
    apply trySpawn_inv in Hsp. destruct Hsp as [_ ->].
    apply checkCollision_spawned. }
  rewrite (gameLoop_playing _ _ _ Hs). cbn zeta.
  cbn [pipesRef score bird gameState]. rewrite Hhit.
  rewrite <- filterPipes_staged.
  split; [reflexivity|]. split; [|split; [reflexivity|split; [|split]]].
  - destruct (trySpawn currentTime random (lastPipeTime g));
      [reflexivity|now rewrite app_nil_r].
  - intros pipe Hin Hkeep. rewrite Forall_forall in Hpipes.
    now apply removed_was_passed; [apply Hpipes|].
  - reflexivity.
  - destruct (checkCollision (fst (filterPipes (pipesRef g)))
                             (bird_y (newBird (bird g))));
      split; congruence.
Qed.

Lemma frame_order_witness :
  reachable (run [Action; Frame true 5000%Z 0.5] initialGame) /\
  gameState (run [Action; Frame true 5000%Z 0.5] initialGame) = playing /\
  pipesRef (gameLoop true 9000%Z 0.25
              (run [Action; Frame true 5000%Z 0.5] initialGame))
  = fst (markPassed
           (retireOffscreen
              (advance
                 (pipesRef (run [Action; Frame true 5000%Z 0.5] initialGame)))))
    ++ [newPipe 0.25].
Proof.
  assert (Hr : reachable (run [Action; Frame true 5000%Z 0.5] initialGame))
    by (apply reachable_run; [constructor|reflexivity]).
  split; [exact Hr|]. split; [reflexivity|].
  apply (frame_order 9000%Z 0.25 _ Hr eq_refl).
Defined.

(** ** Game over *)

(** What a frame that meets a collision leaves behind: the high score is
    the larger of the old high score and the score the game had when the
    frame began, while the score also counts the pipes flagged in the
    frame. *)
Lemma gameLoop_collision (currentTime : Z) (random : Q) (g : Game) :
  gameState g = playing ->
  checkCollision (pipesRef (gameLoop true currentTime random g))
                 (bird_y (newBird (bird g))) = true ->
  gameState (gameLoop true currentTime random g) = gameOver /\
  highScore (gameLoop true currentTime random g)
  = Z.max (highScore g) (score g) /\
  score (gameLoop true currentTime random g)
  = (score g + Z.of_nat (length (filter flips (pipesRef g))))%Z.
Proof.
  intros Hs. rewrite (gameLoop_playing _ _ _ Hs). cbn zeta.
  cbn [pipesRef gameState highScore score]. intros ->.
  rewrite filterPipes_scored. auto.
Qed.

Lemma gameLoop_no_collision (currentTime : Z) (random : Q) (g : Game) :
  gameState g = playing ->
  checkCollision (pipesRef (gameLoop true currentTime random g))
                 (bird_y (newBird (bird g))) = false ->
  gameState (gameLoop true currentTime random g) = playing /\
  highScore (gameLoop true currentTime random g) = highScore g.
Proof.
  intros Hs. rewrite (gameLoop_playing _ _ _ Hs). cbn zeta.
  cbn [pipesRef gameState highScore]. intros ->. auto.
Qed.

(** C2 at a state the game reaches: after [glidingRun] the game is in play
    with score 0 and high score 0; the next frame flags the pipe, so the
    score becomes 1, and meets a collision, so the game is over; the high
    score it leaves is 0, not the larger of 0 and 1. *)
Lemma highScore_misses_pass_of_final_frame :
  reachable (run glidingRun initialGame) /\
  gameState (run glidingRun initialGame) = playing /\
  score (run glidingRun initialGame) = 0%Z /\
  highScore (run glidingRun initialGame) = 0%Z /\
  gameState (gameLoop true 5000%Z 0.99 (run glidingRun initialGame))
  = gameOver /\
  score (gameLoop true 5000%Z 0.99 (run glidingRun initialGame)) = 1%Z /\
  highScore (gameLoop true 5000%Z 0.99 (run glidingRun initialGame)) = 0%Z.
Proof.
  split; [apply reachable_run; [constructor|reflexivity]|].
  assert (H : (let g := run glidingRun initialGame in
               let g' := gameLoop true 5000%Z 0.99 g in
               (gameState g, score g, highScore g,
                gameState g', score g', highScore g'))
              = (playing, 0%Z, 0%Z, gameOver, 1%Z, 0%Z))
    by (vm_compute; reflexivity).
  cbv zeta in H.
  apply pair_equal_spec in H. destruct H as [H H6].
  apply pair_equal_spec in H. destruct H as [H H5].
  apply pair_equal_spec in H. destruct H as [H H4].
  apply pair_equal_spec in H. destruct H as [H H3].
  apply pair_equal_spec in H. destruct H as [H1 H2].
  exact (conj H1 (conj H2 (conj H3 (conj H4 (conj H5 H6))))).
Qed.

(** The same frame from a state written out by hand. *)
Example highScore_misses_pass_by_hand :
  gameLoop true 5000%Z 0.5
    (mkGame (mkBird 79.5 6 0.3) playing 0%Z 0%Z [mkPipe (-125) 0 false] 5000%Z)
  = mkGame (mkBird (79.5 + 6) 6 (bird_rotation (newBird (mkBird 79.5 6 0.3))))
           gameOver 1%Z 0%Z [mkPipe (-125 - PIPE_SPEED) 0 true] 5000%Z.
Proof. reflexivity. Qed.

(** * Further properties *)

(** ** The game state and the high score along runs *)

Lemma step_highScore (e : Event) (g : Game) :
  (highScore g <= highScore (step e g))%Z.
Proof.
  destruct e as [|clockReady currentTime random]; cbn [step].
  - unfold handleJump.
    destruct (gameState g); cbn; lia.
  - unfold gameLoop.
    destruct (negb (GameState_eqb (gameState g) playing) || negb clockReady);
      [lia|].
    cbn [highScore]. destruct (checkCollision _ _); lia.
Qed.

(** The high score never drops: whatever events follow, input or frames,
    game over and restart included, it is at least what it was. *)
Theorem highScore_never_drops (events : list Event) (g : Game) :
  (highScore g <= highScore (run events g))%Z.
Proof.
  revert g. induction events as [|e rest IH]; intros g; cbn [run]; [lia|].
  specialize (IH (step e g)). pose proof (step_highScore e g). lia.
Qed.

(** The only changes of state are waiting to playing and game over to
    waiting, both by an action, and playing to game over, by a frame. *)
Theorem gameState_edges (e : Event) (g : Game) :
  gameState (step e g) = gameState g \/
  (e = Action /\ gameState g = waiting /\ gameState (step e g) = playing) \/
  (e = Action /\ gameState g = gameOver /\ gameState (step e g) = waiting) \/
  (e <> Action /\ gameState g = playing /\ gameState (step e g) = gameOver).
Proof.
  destruct e as [|clockReady currentTime random]; cbn [step].
  - unfold handleJump. destruct (gameState g) eqn:Hs; cbn; auto.
    right; right; left. auto.
  - unfold gameLoop. destruct (gameState g) eqn:Hs; cbn; auto.
    destruct clockReady; cbn; [|auto].
    destruct (checkCollision _ _); [|auto].
    right; right; right. repeat split; auto. discriminate.
Qed.

(** ** The order of the pipes *)

Lemma filterCallback_x (pipe : Pipe) :
  pipe_x (f_pipe (filterCallback pipe)) = pipe_x pipe - PIPE_SPEED.
Proof.
  destruct (filterCallback_cases pipe) as [[_ E]|[[_ [_ [_ E]]]|[_ [_ E]]]];
    rewrite E; reflexivity.
Qed.

Lemma filterPipes_In (pipes : list Pipe) (q : Pipe) :
  In q (fst (filterPipes pipes)) ->
  exists p, In p pipes /\ q = f_pipe (filterCallback p).
Proof.
  induction pipes as [|pipe rest IH]; cbn [filterPipes fst]; [intros []|].
  destruct (f_keep (filterCallback pipe)); cbn [In].
  - intros [<-|Hin].
    + exists pipe. auto.
    + destruct (IH Hin) as [p [Hp Hq]]. exists p. auto.
  - intros Hin. destruct (IH Hin) as [p [Hp Hq]]. exists p. auto.
Qed.

Lemma filterPipes_spaced (pipes : list Pipe) :
  spaced pipes -> spaced (fst (filterPipes pipes)).
Proof.
  unfold spaced. induction 1 as [|pipe rest Hall _ IH];
    cbn [filterPipes fst]; [constructor|].
  destruct (f_keep (filterCallback pipe)); [|assumption].
  constructor; [|assumption].
  apply Forall_forall. intros q Hq.
  destruct (filterPipes_In _ _ Hq) as [p [Hp ->]].
  rewrite Forall_forall in Hall. specialize (Hall p Hp).
  unfold leftOf in *. rewrite !filterCallback_x. lra.
Qed.

Lemma spaced_snoc (pipes : list Pipe) (q : Pipe) :
  spaced pipes -> Forall (fun p => leftOf p q) pipes -> spaced (pipes ++ [q]).
Proof.
  unfold spaced. induction 1 as [|pipe rest Hall _ IH]; intros Hq; cbn [app].
  - constructor; constructor.
  - inversion Hq as [|? ? Hpq Hrest]; subst.
    constructor; [|now apply IH].
    apply Forall_app. split; [assumption|]. constructor; [assumption|constructor].
Qed.

Lemma filterPipes_before_spawn (pipes : list Pipe) (random : Q) :
  Forall pipeInv pipes ->
  Forall (fun p => leftOf p (newPipe random)) (fst (filterPipes pipes)).
Proof.
  intros Hinv. apply Forall_forall. intros q Hq.
  destruct (filterPipes_In _ _ Hq) as [p [Hp ->]].
  rewrite Forall_forall in Hinv. destruct (Hinv p Hp) as [_ [_ [Hhi _]]].
  unfold leftOf. rewrite filterCallback_x. cbn [newPipe pipe_x]. lra.
Qed.

Lemma filter_none (A : Type) (f : A -> bool) (l : list A) :
  (forall a, In a l -> f a = false) -> filter f l = [].
Proof.
  induction l as [|a l IH]; intros H; cbn [filter]; [reflexivity|].
  rewrite (H a (or_introl eq_refl)). apply IH. intros b Hb. apply H. now right.
Qed.

(** In a spaced list at most one pipe is flagged by a frame. *)
Lemma flips_at_most_one (pipes : list Pipe) :
  spaced pipes -> Forall pipeInv pipes ->
  (length (filter flips pipes) <= 1)%nat.
Proof.
  unfold spaced. induction 1 as [|pipe rest Hall _ IH]; intros Hinv;
    cbn [filter length]; [lia|].
  inversion Hinv as [|? ? Hp Hrest]; subst.
  destruct (flips pipe) eqn:Hf; [|now apply IH].
  assert (Hx : birdX <= pipe_x pipe + PIPE_WIDTH / 2).
  { destruct Hp as [Hflag _].
    destruct (Qlt_le_dec (pipe_x pipe + PIPE_WIDTH / 2) birdX) as [Hlt|Hge];
      [|assumption].
    apply Hflag in Hlt. unfold flips in Hf. rewrite Hlt in Hf. discriminate. }
  assert (Hnone : filter flips rest = []).
  { apply filter_none.
    intros q Hq. rewrite Forall_forall in Hall. specialize (Hall q Hq).
    unfold leftOf in Hall. apply not_true_iff_false.
    unfold flips. intros Hfq.
    destruct (filterCallback_cases q)
      as [[_ E]|[[_ [_ [Hc E]]]|[_ [_ E]]]]; rewrite E in Hfq;
      cbn [f_keep f_pipe pipe_passed] in Hfq; cbn zeta in *.
    - now rewrite andb_false_r in Hfq.
    - qarith.
    - now destruct (pipe_passed q). }
  rewrite Hnone. cbn. lia.
Qed.

(** ** Bounds kept along runs *)

Lemma handleJump_scoreInv (g : Game) : scoreInv g -> scoreInv (handleJump g).
Proof.
  intros [Hsp [Hv [Hs [Hh Hover]]]]. unfold handleJump, scoreInv.
  destruct (gameState g) eqn:Hst; cbn.
  - repeat split; auto. discriminate.
  - repeat split; auto; try congruence. qarith.
  - repeat split; auto; try discriminate; try lia; try constructor.
    all: qarith.
Qed.

Lemma gameLoop_scoreInv (clockReady : bool) (currentTime : Z) (random : Q)
    (g : Game) :
  gameInv g -> scoreInv g ->
  scoreInv (gameLoop clockReady currentTime random g).
Proof.
  intros [Hinv [Hvmax _]] Hsc.
  destruct clockReady; [|now rewrite gameLoop_idle by auto].
  destruct (gameState g) eqn:Hst;
    [rewrite gameLoop_idle by (left; congruence); assumption| |
     rewrite gameLoop_idle by (left; congruence); assumption].
  destruct Hsc as [Hsp [Hv [Hs [Hh _]]]].
  pose proof (flips_at_most_one _ Hsp Hinv) as Hone.
  rewrite (gameLoop_playing _ _ _ Hst). unfold scoreInv. cbn.
  rewrite filterPipes_scored.
  split; [|split; [|split; [|split]]].
  - destruct (trySpawn currentTime random (lastPipeTime g)) eqn:Hspawn.
    + apply trySpawn_inv in Hspawn. destruct Hspawn as [_ ->].
      apply spaced_snoc; [now apply filterPipes_spaced|].
      now apply filterPipes_before_spawn.
    + now apply filterPipes_spaced.
  - apply Q.min_glb; qarith.
  - lia.
  - destruct (checkCollision _ _); lia.
  - destruct (checkCollision _ _); [lia|discriminate].
Qed.

Lemma reachable_scoreInv (g : Game) : reachable g -> scoreInv g.
Proof.
  induction 1 as [|e g Hr IH Hv].
  - unfold scoreInv, initialGame; cbn.
    repeat split; try lia; try discriminate; try (constructor; fail).
    all: qarith.
  - destruct e as [|clockReady currentTime random]; cbn [step].
    + now apply handleJump_scoreInv.
    + apply gameLoop_scoreInv; [now apply reachable_inv|assumption].
Qed.

Lemma spaced_reach (pipes : list Pipe) (a : Pipe) :
  spaced (a :: pipes) ->
  Forall (fun p => pipe_x p <= 250) (a :: pipes) ->
  pipe_x a + PIPE_SPEED * inject_Z (Z.of_nat (length pipes)) <= 250.
Proof.
  revert a. induction pipes as [|b rest IH]; intros a Hsp Hhi.
  - inversion Hhi; subst. cbn [length Z.of_nat].
    change (inject_Z 0) with 0. qarith.
  - inversion Hsp as [|? ? Hall Hsp']; subst.
    inversion Hhi as [|? ? _ Hhi']; subst.
    inversion Hall as [|? ? Hab _]; subst.
    specialize (IH b Hsp' Hhi'). unfold leftOf in Hab.
    cbn [length]. rewrite Nat2Z.inj_succ. unfold Z.succ.
    rewrite inject_Z_plus. change (inject_Z 1) with 1. qarith.
Qed.

(** Along every run the scores are never negative, and when the game is
    over the score is at most one above the high score: the high score can
    miss the pipe flagged in the final frame, and nothing more. *)
Theorem scores_bounds (g : Game) :
  reachable g ->
  (0 <= score g)%Z /\ (0 <= highScore g)%Z /\
  (gameState g = gameOver -> (score g <= highScore g + 1)%Z).
Proof.
  intros Hr. destruct (reachable_scoreInv g Hr) as [_ [_ [Hs [Hh Hover]]]].
  auto.
Qed.

Lemma scores_bounds_witness :
  reachable (run (fallingRun 60) initialGame) /\
  (gameState (run (fallingRun 60) initialGame) = gameOver ->
   (score (run (fallingRun 60) initialGame)
    <= highScore (run (fallingRun 60) initialGame) + 1)%Z).
Proof.
  assert (Hr : reachable (run (fallingRun 60) initialGame))
    by (apply reachable_run; [constructor|reflexivity]).
  split; [exact Hr|]. apply (scores_bounds _ Hr).
Defined.

(** A frame never takes anything from the score and adds at most one to it:
    two pipes are never flagged in the same frame. *)
Theorem score_grows_by_at_most_one (clockReady : bool) (currentTime : Z)
    (random : Q) (g : Game) :
  reachable g ->
  (score g <= score (gameLoop clockReady currentTime random g) <= score g + 1)%Z.
Proof.
  intros Hr.
  destruct (reachable_scoreInv g Hr) as [Hsp _].
  destruct (reachable_inv g Hr) as [Hinv _].
  pose proof (flips_at_most_one _ Hsp Hinv) as Hone.
  destruct clockReady; [|rewrite gameLoop_idle by auto; lia].
  destruct (gameState g) eqn:Hst;
    [rewrite gameLoop_idle by (left; congruence); lia| |
     rewrite gameLoop_idle by (left; congruence); lia].
  rewrite (gameLoop_playing _ _ _ Hst). cbn [score].
  rewrite filterPipes_scored. lia.
Qed.

Lemma score_grows_by_at_most_one_witness :
  reachable (run [Action; Frame true 5000%Z 0.5] initialGame) /\
  (score (run [Action; Frame true 5000%Z 0.5] initialGame)
   <= score (gameLoop true 9000%Z 0.5
               (run [Action; Frame true 5000%Z 0.5] initialGame))
   <= score (run [Action; Frame true 5000%Z 0.5] initialGame) + 1)%Z.
Proof.
  assert (Hr : reachable (run [Action; Frame true 5000%Z 0.5] initialGame))
    by (apply reachable_run; [constructor|reflexivity]).
  split; [exact Hr|]. apply (score_grows_by_at_most_one true 9000%Z 0.5 _ Hr).
Defined.

(** Along every run the pipes are listed from left to right, each at least
    [PIPE_SPEED] to the left of the next, and there are never more than 334
    of them. *)
Theorem pipes_spaced_and_few (g : Game) :
  reachable g ->
  spaced (pipesRef g) /\ (length (pipesRef g) <= 334)%nat.
Proof.
  intros Hr.
  destruct (reachable_scoreInv g Hr) as [Hsp _].
  destruct (reachable_inv g Hr) as [Hinv _].
  split; [assumption|].
  destruct (pipesRef g) as [|a rest]; [cbn; lia|].
  assert (Hhi : Forall (fun p => pipe_x p <= 250) (a :: rest)).
  { apply Forall_forall. intros p Hp. rewrite Forall_forall in Hinv.
    destruct (Hinv p Hp) as [_ [_ [Hx _]]]. qarith. }
  pose proof (spaced_reach rest a Hsp Hhi) as Hreach.
  inversion Hinv as [|? ? [_ [Hlo _]] _]; subst.
  cbn [length].
  destruct (Nat.le_gt_cases (length rest) 333) as [Hle|Hgt]; [lia|exfalso].
  assert (Hn : 334 <= inject_Z (Z.of_nat (length rest)))
    by (change 334 with (inject_Z 334); rewrite <- Zle_Qle; lia).
  qarith.
Qed.

Lemma pipes_spaced_and_few_witness :
  reachable (run [Action; Frame true 5000%Z 0.5; Frame true 9000%Z 0.25]
               initialGame) /\
  (length (pipesRef (run [Action; Frame true 5000%Z 0.5; Frame true 9000%Z 0.25]
                       initialGame)) <= 334)%nat.
Proof.
  assert (Hr : reachable (run [Action; Frame true 5000%Z 0.5;
                               Frame true 9000%Z 0.25] initialGame))
    by (apply reachable_run; [constructor|reflexivity]).
  split; [exact Hr|]. apply (pipes_spaced_and_few _ Hr).
Defined.

(** ** The motion of the bird *)



(** ** Scoring and the collision window *)

(** A pipe with [x] strictly between -135 and -125 is already behind the
    bird's centre, so that it is, or is about to be, counted as passed, and
    it still overlaps the bird's span: the bird can yet collide with a pipe
    it has scored. *)
Theorem scored_pipe_still_hits (pipe : Pipe) (birdY : Q) :
  -135 < pipe_x pipe -> pipe_x pipe < -125 ->
  -230 <= birdY -> birdY <= 230 ->
  behindBird pipe = true /\
  spansOverlap pipe = true /\
  (checkCollision [pipe] birdY = true <->
   birdY + birdRadius < pipe_gapY pipe - PIPE_GAP / 2 \/
   pipe_gapY pipe + PIPE_GAP / 2 < birdY - birdRadius).
Proof.
  intros Hlo Hhi Hb1 Hb2.
  assert (Hbehind : behindBird pipe = true)
    by (unfold behindBird; apply Qltb_lt; qarith).
  assert (Hover : spansOverlap pipe = true)
    by (apply spansOverlap_iff; split; qarith).
  split; [assumption|]. split; [assumption|].
  rewrite checkCollision_true_iff. cbn [pipeLoop]. rewrite Hover.
  rewrite <- outsideGap_iff.
  destruct (outsideGap birdY pipe); split; auto.
  - intros [[H|H]|H]; [exfalso; lra|exfalso; lra|discriminate].
Qed.

Lemma scored_pipe_still_hits_witness :
  -135 < pipe_x (mkPipe (-126.5) 0 true) /\
  pipe_x (mkPipe (-126.5) 0 true) < -125 /\
  -230 <= 100 /\ 100 <= 230 /\
  behindBird (mkPipe (-126.5) 0 true) = true /\
  checkCollision [mkPipe (-126.5) 0 true] 100 = true.
Proof.
  assert (H1 : -135 < pipe_x (mkPipe (-126.5) 0 true)) by (cbn; lra).
  assert (H2 : pipe_x (mkPipe (-126.5) 0 true) < -125) by (cbn; lra).
  assert (H3 : -230 <= 100) by lra. assert (H4 : 100 <= 230) by lra.
  destruct (scored_pipe_still_hits (mkPipe (-126.5) 0 true) 100 H1 H2 H3 H4)
    as [Hb [_ Hc]].
  repeat (split; [assumption|]). apply Hc. right. cbn [pipe_gapY]. qarith.
Defined.

(** ** The pipe meshes *)


